(** * FileBackend (src/tree_store/page_store/file_backend/optimized.rs)

    Shallow embedding of redb's on-disk storage backend.  The operating
    system is modelled by oracles: every positional read or write call is
    answered by an [Env] (the i-th call either makes progress of at most
    [cap] bytes or fails with an [io_error]); the file contents are a
    [list byte].  File offsets and lengths ([u64] / [usize] in the source)
    are modelled as [nat]: the code never relies on their wrap-around.
    Loops are run with fuel; [None] means the fuel ran out (the loop did not
    finish). *)

From Stdlib Require Import List Arith Lia ZArith Bool.
Import ListNotations.

Definition byte := Byte.byte.

(** ** std::io::Error *)

Inductive ErrorKind :=
| NotFound
| Interrupted
| Unsupported
| UnexpectedEof
| WriteZero
| Other.

Record io_error := mk_io_error {
  kind : ErrorKind;
  raw_os_error : option nat
}.

(** [std::sys::decode_error_kind] for the errno values that matter here
    (EINTR = 4, ENOTSUP = 45 on macOS). *)
Definition decode_error_kind (errno : nat) : ErrorKind :=
  match errno with
  | 4 => Interrupted
  | 45 => Unsupported
  | _ => Other
  end.

(** [io::Error::last_os_error()]: the error built from the current errno. *)
Definition last_os_error (errno : nat) : io_error :=
  {| kind := decode_error_kind errno; raw_os_error := Some errno |}.

(** The constant errors of std's [read_exact_at] / [write_all_at]. *)
Definition READ_EXACT_EOF : io_error :=
  {| kind := UnexpectedEof; raw_os_error := None |}.
Definition WRITE_ALL_EOF : io_error :=
  {| kind := WriteZero; raw_os_error := None |}.

Inductive result (T E : Type) :=
| Ok (t : T)
| Err (e : E).
Arguments Ok {T E} t.
Arguments Err {T E} e.

(** [std::fs::TryLockError] *)
Inductive TryLockError :=
| WouldBlock
| TryLockErr (err : io_error).

Inductive StorageError :=
| Io (err : io_error).

Inductive DatabaseError :=
| DatabaseAlreadyOpen
| Storage (err : StorageError).

(** Modelled from the spec: the conversion [err.into()] from [io::Error] to
    [DatabaseError] is defined outside src/; the spec says such an error is
    propagated as an I/O error, i.e. wrapped as a storage I/O error. *)
Definition database_error_from_io (err : io_error) : DatabaseError :=
  Storage (Io err).

(** ** FileBackend *)

(** An open file handle. *)
Definition File := nat.

Record FileBackend := {
  lock_supported : bool;
  file : File
}.

(** Platforms, selected by [cfg] in the source. *)
Inductive Platform := Linux | MacOS | Wasi | Windows.

(** Observable effects: log lines and system calls. *)
Inductive LogLine :=
| WarnLocksUnsupported.

Inductive Syscall :=
| SysUnlock (f : File)
| SysSyncData (f : File)
| SysFcntlBarrierFsync (f : File).

(** [FileBackend::new]; [logging] is the crate feature "logging" and
    [try_lock] the outcome of [file.try_lock()]. *)
Definition FileBackend_new (logging : bool) (file : File)
    (try_lock : result unit TryLockError)
    : result FileBackend DatabaseError * list LogLine :=
  match try_lock with
  | Ok _ => (Ok {| file := file; lock_supported := true |}, [])
  | Err WouldBlock => (Err DatabaseAlreadyOpen, [])
  | Err (TryLockErr err) =>
      match kind err with
      | Unsupported =>
          ((Ok {| file := file; lock_supported := false |}),
           if logging then [WarnLocksUnsupported] else [])
      | _ => (Err (database_error_from_io err), [])
      end
  end.

(** [StorageBackend::close]; [unlock] is the outcome of [file.unlock()]. *)
Definition close (self : FileBackend) (unlock : result unit io_error)
    : result unit io_error * list Syscall :=
  if lock_supported self then
    match unlock with
    | Err e => (Err e, [SysUnlock (file self)])
    | Ok _ => (Ok tt, [SysUnlock (file self)])
    end
  else (Ok tt, []).

(** A sequence of [close] calls on the same backend, the i-th unlock call
    answered by the i-th element of [unlocks]. *)
Fixpoint close_many (self : FileBackend) (unlocks : list (result unit io_error))
    : list (result unit io_error) * list Syscall :=
  match unlocks with
  | [] => ([], [])
  | u :: us =>
      let (r, t) := close self u in
      let (rs, ts) := close_many self us in
      (r :: rs, t ++ ts)
  end.

(** [StorageBackend::sync_data]; [fsync] is the outcome of
    [file.sync_data()], [fcntl_ret] the return code of
    [fcntl(fd, F_BARRIERFSYNC)] and [errno] the errno after it. *)
Definition sync_data (p : Platform) (self : FileBackend) (eventual : bool)
    (fsync : result unit io_error) (fcntl_ret : Z) (errno : nat)
    : result unit io_error * list Syscall :=
  match p with
  | MacOS =>
      if eventual then
        ((if Z.eqb fcntl_ret (-1) then Err (last_os_error errno) else Ok tt),
         [SysFcntlBarrierFsync (file self)])
      else (fsync, [SysSyncData (file self)])
  | _ => (fsync, [SysSyncData (file self)])
  end.

(** ** File contents and positional primitives *)

(** [l] with the bytes [c] written from position [pos] on. *)
Definition overwrite (l : list byte) (pos : nat) (c : list byte) : list byte :=
  firstn pos l ++ c ++ skipn (pos + length c) l.

(** The OS effect of writing [c] at [off]: a non-empty write past the end
    first extends the file with zero bytes (a hole); an empty write changes
    nothing. *)
Definition file_write (f : list byte) (off : nat) (c : list byte) : list byte :=
  match c with
  | [] => f
  | _ => overwrite (f ++ repeat Byte.x00 (off - length f)) off c
  end.

(** The answer of the OS to one positional read or write call. *)
Inductive Resp :=
| Progress (cap : nat)   (** at most [cap] bytes are transferred *)
| Fail (e : io_error).

(** The answers to the successive positional calls. *)
Definition Env := nat -> Resp.

(** One positional read ([read_at] on unix, [seek_read] on windows) of a
    slice of [want] bytes at [off]: the bytes copied to the front of the
    slice.  At or past the end of the file it copies nothing. *)
Definition read_at (env : Env) (i : nat) (f : list byte) (want off : nat)
    : result (list byte) io_error :=
  match env i with
  | Fail e => Err e
  | Progress cap => Ok (firstn (Nat.min want cap) (skipn off f))
  end.

(** One positional write ([write_at] / [seek_write]) of [slice] at [off]:
    the count written and the new contents. *)
Definition write_at (env : Env) (i : nat) (f : list byte) (slice : list byte)
    (off : nat) : result (nat * list byte) io_error :=
  match env i with
  | Fail e => Err e
  | Progress cap =>
      let n := Nat.min (length slice) cap in
      Ok (n, file_write f off (firstn n slice))
  end.

(** std's [FileExt::read_exact_at] (unix): [buf] is the whole buffer, the
    slice still to fill is [buf[pos..]]. *)
Fixpoint read_exact_at (fuel : nat) (env : Env) (f : list byte) (i : nat)
    (buf : list byte) (pos off : nat) : option (result (list byte) io_error) :=
  match fuel with
  | O => None
  | S fuel =>
      if pos <? length buf then
        match read_at env i f (length buf - pos) off with
        | Err e =>
            match kind e with
            | Interrupted => read_exact_at fuel env f (S i) buf pos off
            | _ => Some (Err e)
            end
        | Ok chunk =>
            match length chunk with
            | O => (* break; the slice is not empty *) Some (Err READ_EXACT_EOF)
            | n => read_exact_at fuel env f (S i) (overwrite buf pos chunk)
                     (pos + n) (off + n)
            end
        end
      else Some (Ok buf)
  end.

(** The loop of [FileBackend::read] on windows. *)
Fixpoint seek_read_loop (fuel : nat) (env : Env) (f : list byte) (i : nat)
    (buffer : list byte) (data_offset offset : nat)
    : option (result (list byte) io_error) :=
  match fuel with
  | O => None
  | S fuel =>
      if data_offset <? length buffer then
        match read_at env i f (length buffer - data_offset) offset with
        | Err e => Some (Err e)
        | Ok chunk =>
            let read := length chunk in
            seek_read_loop fuel env f (S i) (overwrite buffer data_offset chunk)
              (data_offset + read) (offset + read)
        end
      else Some (Ok buffer)
  end.

(** [StorageBackend::read] on a file with contents [f]. *)
Definition read (p : Platform) (fuel : nat) (env : Env) (f : list byte)
    (offset len : nat) : option (result (list byte) io_error) :=
  let buffer := repeat Byte.x00 len in
  match p with
  | Windows => seek_read_loop fuel env f 0 buffer 0 offset
  | _ => read_exact_at fuel env f 0 buffer 0 offset
  end.

(** std's [FileExt::write_all_at] (unix): [buf] is the slice still to
    write. *)
Fixpoint write_all_at (fuel : nat) (env : Env) (i : nat) (f : list byte)
    (buf : list byte) (off : nat) : option (result unit io_error * list byte) :=
  match fuel with
  | O => None
  | S fuel =>
      match buf with
      | [] => Some (Ok tt, f)
      | _ =>
          match write_at env i f buf off with
          | Err e =>
              match kind e with
              | Interrupted => write_all_at fuel env (S i) f buf off
              | _ => Some (Err e, f)
              end
          | Ok (O, _) => Some (Err WRITE_ALL_EOF, f)
          | Ok (n, f') => write_all_at fuel env (S i) f' (skipn n buf) (off + n)
          end
      end
  end.

(** The loop of [FileBackend::write] on windows. *)
Fixpoint seek_write_loop (fuel : nat) (env : Env) (i : nat) (f : list byte)
    (data : list byte) (data_offset offset : nat)
    : option (result unit io_error * list byte) :=
  match fuel with
  | O => None
  | S fuel =>
      if data_offset <? length data then
        match write_at env i f (skipn data_offset data) offset with
        | Err e => Some (Err e, f)
        | Ok (written, f') =>
            seek_write_loop fuel env (S i) f' data (data_offset + written)
              (offset + written)
        end
      else Some (Ok tt, f)
  end.

(** [StorageBackend::write] on a file with contents [f]: the result and the
    new contents. *)
Definition write (p : Platform) (fuel : nat) (env : Env) (f : list byte)
    (offset : nat) (data : list byte) : option (result unit io_error * list byte) :=
  match p with
  | Windows => seek_write_loop fuel env 0 f data 0 offset
  | _ => write_all_at fuel env 0 f data offset
  end.

(** [StorageBackend::len]; [metadata] is the outcome of [file.metadata()]. *)
Definition len (metadata : option io_error) (f : list byte) : result nat io_error :=
  match metadata with
  | Some e => Err e
  | None => Ok (length f)
  end.

(** [StorageBackend::set_len]: [file.set_len] truncates or extends with zero
    bytes; [res] is its failure, if any. *)
Definition set_len (res : option io_error) (f : list byte) (l : nat)
    : result unit io_error * list byte :=
  match res with
  | Some e => (Err e, f)
  | None => (Ok tt, firstn l f ++ repeat Byte.x00 (l - length f))
  end.

(** An OS that answers every positional call in full (up to 4096 bytes). *)
Definition full_env : Env := fun _ => Progress 4096.

(** An OS whose positional calls all report zero bytes transferred. *)
Definition stalled_env : Env := fun _ => Progress 0.

(** An OS that transfers one byte per call. *)
Definition one_byte_env : Env := fun _ => Progress 1.

(** An OS that transfers one byte on the first call and then fails. *)
Definition fail_after_one_env : Env :=
  fun k => match k with
           | O => Progress 1
           | _ => Fail {| kind := Other; raw_os_error := Some 5 |}
           end.

Example read_full_ex :
  read Linux 10 full_env [Byte.x01; Byte.x02; Byte.x03] 1 2
  = Some (Ok [Byte.x02; Byte.x03]).
Proof. reflexivity. Qed.

Example read_win_one_byte_ex :
  read Windows 10 one_byte_env [Byte.x01; Byte.x02; Byte.x03] 1 2
  = Some (Ok [Byte.x02; Byte.x03]).
Proof. reflexivity. Qed.

Example read_past_eof_unix_ex :
  read Linux 10 full_env [Byte.x01] 0 2 = Some (Err READ_EXACT_EOF).
Proof. reflexivity. Qed.

Example write_win_one_byte_ex :
  write Windows 10 one_byte_env [Byte.x01; Byte.x02; Byte.x03] 1 [Byte.x07; Byte.x08]
  = Some (Ok tt, [Byte.x01; Byte.x07; Byte.x08]).
Proof. reflexivity. Qed.

Example write_unix_stalled_ex :
  write Linux 10 stalled_env [Byte.x01] 0 [Byte.x07] = Some (Err WRITE_ALL_EOF, [Byte.x01]).
Proof. reflexivity. Qed.


(** ** List lemmas *)

Lemma firstn_add {A} (a b : nat) (l : list A) :
  firstn (a + b) l = firstn a l ++ firstn b (skipn a l).
Proof.
  revert l; induction a as [|a IH]; intros l; [reflexivity|].
  destruct l as [|x l]; simpl.
  - now rewrite firstn_nil.
  - now rewrite IH.
Qed.

Lemma firstn_length_firstn {A} (k : nat) (l : list A) :
  firstn (length (firstn k l)) l = firstn k l.
Proof.
  rewrite length_firstn.
  destruct (Nat.le_ge_cases k (length l)) as [H|H].
  - now rewrite Nat.min_l.
  - rewrite Nat.min_r by exact H. rewrite firstn_all, firstn_all2 by exact H.
    reflexivity.
Qed.

Lemma overwrite_length (l c : list byte) (pos : nat) :
  pos + length c <= length l -> length (overwrite l pos c) = length l.
Proof.
  intros H. unfold overwrite.
  rewrite !length_app, length_firstn, length_skipn. lia.
Qed.

Lemma overwrite_nil (l : list byte) (pos : nat) : overwrite l pos [] = l.
Proof.
  unfold overwrite. simpl. rewrite Nat.add_0_r. apply firstn_skipn.
Qed.

Lemma firstn_overwrite (l c : list byte) (pos : nat) :
  pos <= length l -> firstn (pos + length c) (overwrite l pos c) = firstn pos l ++ c.
Proof.
  intros H. unfold overwrite.
  assert (Hp : length (firstn pos l) = pos) by (rewrite length_firstn; lia).
  rewrite app_assoc, firstn_app, firstn_all2 by (rewrite length_app; lia).
  rewrite length_app, Hp, Nat.sub_diag. simpl. now rewrite app_nil_r.
Qed.

Lemma skipn_overwrite (l c : list byte) (pos : nat) :
  pos <= length l -> skipn pos (overwrite l pos c) = c ++ skipn (pos + length c) l.
Proof.
  intros H. unfold overwrite.
  assert (Hp : length (firstn pos l) = pos) by (rewrite length_firstn; lia).
  rewrite skipn_app, Hp, Nat.sub_diag, skipn_all2 by lia. reflexivity.
Qed.

Lemma overwrite_compose (f a b : list byte) (o : nat) :
  o + length a + length b <= length f ->
  overwrite (overwrite f o a) (o + length a) b = overwrite f o (a ++ b).
Proof.
  intros H.
  assert (Hp : length (firstn o f) = o) by (rewrite length_firstn; lia).
  unfold overwrite at 2 3.
  set (Y := firstn o f ++ a).
  assert (HY : length Y = o + length a) by (unfold Y; rewrite length_app; lia).
  unfold overwrite.
  replace (firstn o f ++ a ++ skipn (o + length a) f)
    with (Y ++ skipn (o + length a) f) by (unfold Y; now rewrite app_assoc).
  rewrite firstn_app, firstn_all2 by lia. rewrite HY, Nat.sub_diag. simpl.
  rewrite skipn_app, skipn_all2 by lia. rewrite HY. simpl.
  rewrite skipn_skipn, length_app.
  replace (o + length a + length b - (o + length a) + (o + length a))
    with (o + (length a + length b)) by lia.
  unfold Y. now rewrite app_nil_r, <- !app_assoc.
Qed.

Lemma file_write_inbounds (f c : list byte) (off : nat) :
  off + length c <= length f -> file_write f off c = overwrite f off c.
Proof.
  intros H. destruct c as [|x c].
  - simpl. now rewrite overwrite_nil.
  - unfold file_write. simpl in H.
    replace (off - length f) with 0 by lia. simpl. now rewrite app_nil_r.
Qed.

(** One step of filling a read buffer from the file: the filled prefix grows
    by the bytes the call returned, and stays equal to the file's bytes. *)
Lemma fill_step (f buf : list byte) (off0 d k : nat) :
  d <= length buf -> firstn d buf = firstn d (skipn off0 f) -> k <= length buf - d ->
  let chunk := firstn k (skipn (off0 + d) f) in
  length (overwrite buf d chunk) = length buf /\
  d + length chunk <= length buf /\
  firstn (d + length chunk) (overwrite buf d chunk)
  = firstn (d + length chunk) (skipn off0 f).
Proof.
  intros Hd Hpre Hk chunk.
  assert (Hc : length chunk <= k) by (unfold chunk; rewrite length_firstn; lia).
  split; [apply overwrite_length; lia|].
  split; [lia|].
  rewrite firstn_overwrite by lia. rewrite Hpre, firstn_add, skipn_skipn.
  rewrite (Nat.add_comm d off0). unfold chunk at 2.
  now rewrite firstn_length_firstn.
Qed.

(** ** Loop invariants *)

Lemma seek_read_loop_ok (fuel : nat) : forall env f i buf d off0 off r,
  d <= length buf -> firstn d buf = firstn d (skipn off0 f) -> off = off0 + d ->
  seek_read_loop fuel env f i buf d off = Some (Ok r) ->
  length r = length buf /\ r = firstn (length buf) (skipn off0 f).
Proof.
  induction fuel as [|fuel IH]; intros env f i buf d off0 off r Hd Hpre Hoff Hrun;
    [discriminate|].
  simpl in Hrun. destruct (Nat.ltb_spec d (length buf)) as [Hlt|Hge].
  - unfold read_at in Hrun. destruct (env i) as [cap|e]; [|discriminate].
    subst off.
    destruct (fill_step f buf off0 d (Nat.min (length buf - d) cap) Hd Hpre)
      as (Hlen & Hle & Hpre'); [lia|].
    apply (IH env f (S i) _ _ off0) in Hrun; [| rewrite Hlen; exact Hle | exact Hpre' | lia].
    now rewrite Hlen in Hrun.
  - injection Hrun as <-. split; [reflexivity|].
    assert (d = length buf) as -> by lia.
    now rewrite <- Hpre, firstn_all.
Qed.

Lemma read_exact_at_ok (fuel : nat) : forall env f i buf d off0 off r,
  d <= length buf -> firstn d buf = firstn d (skipn off0 f) -> off = off0 + d ->
  read_exact_at fuel env f i buf d off = Some (Ok r) ->
  length r = length buf /\ r = firstn (length buf) (skipn off0 f).
Proof.
  induction fuel as [|fuel IH]; intros env f i buf d off0 off r Hd Hpre Hoff Hrun;
    [discriminate|].
  simpl in Hrun. destruct (Nat.ltb_spec d (length buf)) as [Hlt|Hge].
  - unfold read_at in Hrun. destruct (env i) as [cap|e].
    + subst off.
      destruct (fill_step f buf off0 d (Nat.min (length buf - d) cap) Hd Hpre)
        as (Hlen & Hle & Hpre'); [lia|].
      set (chunk := firstn (Nat.min (length buf - d) cap) (skipn (off0 + d) f))
        in *.
      destruct (length chunk) as [|n] eqn:Hn; [discriminate|].
      rewrite <- Hn in Hrun, Hle, Hpre'.
      apply (IH env f (S i) _ _ off0) in Hrun; [| rewrite Hlen; exact Hle | exact Hpre' | lia].
      now rewrite Hlen in Hrun.
    + destruct (kind e); try discriminate.
      exact (IH env f (S i) buf d off0 off r Hd Hpre Hoff Hrun).
  - injection Hrun as <-. split; [reflexivity|].
    assert (d = length buf) as -> by lia.
    now rewrite <- Hpre, firstn_all.
Qed.

Lemma seek_write_loop_ok (fuel : nat) : forall env i fc data d off o f0 r f',
  o + length data <= length f0 -> d <= length data ->
  fc = overwrite f0 o (firstn d data) -> off = o + d ->
  seek_write_loop fuel env i fc data d off = Some (r, f') ->
  r = Ok tt -> f' = overwrite f0 o data.
Proof.
  induction fuel as [|fuel IH];
    intros env i fc data d off o f0 r f' Hin Hd Hfc Hoff Hrun Hr; [discriminate|].
  subst r. simpl in Hrun. destruct (Nat.ltb_spec d (length data)) as [Hlt|Hge].
  - unfold write_at in Hrun. destruct (env i) as [cap|e]; [|discriminate].
    set (n := Nat.min (length (skipn d data)) cap) in *.
    assert (Hn : n <= length data - d) by (unfold n; rewrite length_skipn; lia).
    assert (Hfd : length (firstn d data) = d) by (rewrite length_firstn; lia).
    assert (Hcn : length (firstn n (skipn d data)) = n)
      by (rewrite length_firstn, length_skipn; lia).
    assert (Hlfc : length fc = length f0)
      by (subst fc; apply overwrite_length; lia).
    rewrite file_write_inbounds in Hrun by lia.
    apply (IH env (S i) (overwrite fc off (firstn n (skipn d data))) data
             (d + n) (off + n) o f0 (Ok tt) f');
      [exact Hin | lia | | lia | exact Hrun | reflexivity].
    subst fc off. rewrite <- Hfd at 2.
    rewrite overwrite_compose by lia.
    now rewrite firstn_add.
  - injection Hrun as <-. subst fc.
    assert (d = length data) as -> by lia.
    now rewrite firstn_all.
Qed.

Lemma write_all_at_ok (fuel : nat) : forall env i fc buf off d o data f0 r f',
  o + length data <= length f0 -> d <= length data -> buf = skipn d data ->
  fc = overwrite f0 o (firstn d data) -> off = o + d ->
  write_all_at fuel env i fc buf off = Some (r, f') ->
  r = Ok tt -> f' = overwrite f0 o data.
Proof.
  induction fuel as [|fuel IH];
    intros env i fc buf off d o data f0 r f' Hin Hd Hbuf Hfc Hoff Hrun Hr;
    [discriminate|].
  subst r buf. simpl in Hrun.
  assert (Hfd : length (firstn d data) = d) by (rewrite length_firstn; lia).
  assert (Hlfc : length fc = length f0)
    by (subst fc; apply overwrite_length; lia).
  destruct (skipn d data) as [|b bs] eqn:Eb.
  - injection Hrun as <-. subst fc.
    assert (Hle : length data <= d) by (apply skipn_all_iff; exact Eb).
    assert (d = length data) as -> by lia.
    now rewrite firstn_all.
  - rewrite <- Eb in Hrun. unfold write_at in Hrun.
    destruct (env i) as [cap|e].
    + set (n := Nat.min (length (skipn d data)) cap) in *.
      assert (Hn : n <= length data - d)
        by (unfold n; rewrite length_skipn; lia).
      assert (Hcn : length (firstn n (skipn d data)) = n)
        by (rewrite length_firstn; unfold n; lia).
      destruct n as [|n'] eqn:En; [discriminate|].
      rewrite <- En in *.
      rewrite file_write_inbounds in Hrun by lia.
      apply (IH env (S i) (overwrite fc off (firstn n (skipn d data)))
               (skipn n (skipn d data)) (off + n) (d + n) o data f0 (Ok tt) f');
        [exact Hin | lia | | | lia | exact Hrun | reflexivity].
      * rewrite skipn_skipn. f_equal. lia.
      * subst fc off. rewrite <- Hfd at 2.
        rewrite overwrite_compose by lia.
        now rewrite firstn_add.
    + destruct (kind e); try discriminate.
      exact (IH env (S i) fc (skipn d data) off d o data f0 (Ok tt) f'
               Hin Hd eq_refl Hfc Hoff Hrun eq_refl).
Qed.

(** Successful reads: the whole buffer holds the file's bytes. *)
Lemma read_ok (p : Platform) (fuel : nat) (env : Env) (f : list byte)
    (off n : nat) (buf : list byte) :
  read p fuel env f off n = Some (Ok buf) ->
  length buf = n /\ buf = firstn n (skipn off f).
Proof.
  unfold read. intros Hrun.
  assert (Hl : length (repeat Byte.x00 n) = n) by apply repeat_length.
  assert (H : length buf = length (repeat Byte.x00 n) /\
              buf = firstn (length (repeat Byte.x00 n)) (skipn off f)).
  { destruct p;
      [ apply (read_exact_at_ok fuel env f 0 _ 0 off off)
      | apply (read_exact_at_ok fuel env f 0 _ 0 off off)
      | apply (read_exact_at_ok fuel env f 0 _ 0 off off)
      | apply (seek_read_loop_ok fuel env f 0 _ 0 off off) ];
      solve [exact Hrun | simpl; lia | reflexivity]. }
  now rewrite Hl in H.
Qed.

(** Successful in-bounds writes: the file holds [data] at [off]. *)
Lemma write_ok (p : Platform) (fuel : nat) (env : Env) (f : list byte)
    (off : nat) (data f' : list byte) :
  off + length data <= length f ->
  write p fuel env f off data = Some (Ok tt, f') ->
  f' = overwrite f off data.
Proof.
  unfold write. intros Hin Hrun.
  destruct p;
    [ apply (write_all_at_ok fuel env 0 f data off 0 off data f (Ok tt) f')
    | apply (write_all_at_ok fuel env 0 f data off 0 off data f (Ok tt) f')
    | apply (write_all_at_ok fuel env 0 f data off 0 off data f (Ok tt) f')
    | apply (seek_write_loop_ok fuel env 0 f data 0 off off f (Ok tt) f') ];
    try assumption; try lia; try reflexivity;
    simpl; symmetry; apply overwrite_nil.
Qed.

(** On windows, a [seek_read] call that returns zero bytes leaves the loop
    state as it was and the loop goes on with the next call. *)
Lemma seek_read_loop_zero_step (fuel : nat) (env : Env) (f : list byte)
    (i : nat) (buf : list byte) (d off : nat) :
  d < length buf -> read_at env i f (length buf - d) off = Ok [] ->
  seek_read_loop (S fuel) env f i buf d off = seek_read_loop fuel env f (S i) buf d off.
Proof.
  intros Hd Hz. simpl. rewrite (proj2 (Nat.ltb_lt _ _) Hd), Hz. simpl.
  now rewrite overwrite_nil, !Nat.add_0_r.
Qed.

(** On windows, a [seek_write] call that writes zero bytes leaves the file
    and the loop state as they were and the loop goes on. *)
Lemma seek_write_loop_zero_step (fuel : nat) (env : Env) (i : nat)
    (f data : list byte) (d off : nat) :
  d < length data -> env i = Progress 0 ->
  seek_write_loop (S fuel) env i f data d off = seek_write_loop fuel env (S i) f data d off.
Proof.
  intros Hd Hz. simpl. rewrite (proj2 (Nat.ltb_lt _ _) Hd). unfold write_at.
  rewrite Hz, Nat.min_0_r. simpl. now rewrite !Nat.add_0_r.
Qed.

Lemma seek_read_loop_spins (fuel i : nat) :
  seek_read_loop fuel full_env [Byte.x01; Byte.x02; Byte.x03; Byte.x04] i
    [Byte.x03; Byte.x04; Byte.x00; Byte.x00] 2 4 = None.
Proof.
  revert i; induction fuel as [|fuel IH]; intros i; [reflexivity|].
  rewrite seek_read_loop_zero_step by first [simpl; lia | reflexivity]. apply IH.
Qed.

Lemma seek_write_loop_spins (fuel i : nat) :
  seek_write_loop fuel stalled_env i [Byte.x01] [Byte.x07] 0 0 = None.
Proof.
  revert i; induction fuel as [|fuel IH]; intros i; [reflexivity|].
  rewrite seek_write_loop_zero_step by first [simpl; lia | reflexivity]. apply IH.
Qed.

(** The number of unlock calls in a trace. *)
Definition unlock_calls (t : list Syscall) : nat :=
  length (filter (fun s => match s with SysUnlock _ => true | _ => false end) t).

(** ** Claims *)

(** C1 (code_bug): on windows, [read] does not fail when a [seek_read] call
    returns zero bytes before the buffer is full.  Reading 4 bytes at offset
    2 of a 4-byte file: the first call returns the 2 remaining bytes, every
    later call returns 0 (end of file), and the loop never returns, for any
    amount of fuel; the unix path ([read_exact_at]) reports
    [UnexpectedEof] on the same input. *)
Theorem C1_windows_read_zero_spins :
  (forall fuel,
     read Windows fuel full_env [Byte.x01; Byte.x02; Byte.x03; Byte.x04] 2 4 = None) /\
  read Linux 3 full_env [Byte.x01; Byte.x02; Byte.x03; Byte.x04] 2 4
  = Some (Err READ_EXACT_EOF).
Proof.
  split; [|reflexivity].
  intros [|fuel]; [reflexivity|]. apply seek_read_loop_spins.
Qed.

(** C2 (code_bug): on windows, [write] does not fail when a [seek_write]
    call writes zero bytes before all data is written: with every call
    reporting zero bytes, writing one byte never returns, for any amount of
    fuel, and the file is unchanged; the unix path ([write_all_at]) reports
    [WriteZero] on the same input. *)
Theorem C2_windows_write_zero_spins :
  (forall fuel, write Windows fuel stalled_env [Byte.x01] 0 [Byte.x07] = None) /\
  write Linux 1 stalled_env [Byte.x01] 0 [Byte.x07] = Some (Err WRITE_ALL_EOF, [Byte.x01]).
Proof.
  split; [|reflexivity].
  intros fuel. apply seek_write_loop_spins.
Qed.

(** An "unsupported" locking error, as [try_lock] reports it. *)
Definition lock_unsupported_err : io_error :=
  {| kind := Unsupported; raw_os_error := Some 45 |}.

(** C3 (counterexample): with the crate's logging feature off, the
    unsupported-lock outcome builds a backend with [lock_supported = false]
    but emits no warning. *)
Lemma C3_unsupported_without_warning :
  FileBackend_new false 7 (Err (TryLockErr lock_unsupported_err))
  = (Ok {| lock_supported := false; file := 7 |}, []) /\
  ~ In WarnLocksUnsupported (snd (FileBackend_new false 7 (Err (TryLockErr lock_unsupported_err)))).
Proof. split; [reflexivity | simpl; tauto]. Qed.

(** C3 (amended): [FileBackend::new] has four outcomes decided by the lock
    attempt: acquired gives [lock_supported = true]; contended gives
    [DatabaseAlreadyOpen]; unsupported gives [lock_supported = false] with a
    warning exactly when the logging feature is on; any other error is
    propagated as a storage I/O error.  Only the unsupported outcome logs. *)
Theorem C3_FileBackend_new_outcomes (logging : bool) (file : File)
    (r : result unit TryLockError) :
  (r = Ok tt ->
     FileBackend_new logging file r = (Ok {| lock_supported := true; file := file |}, [])) /\
  (r = Err WouldBlock ->
     FileBackend_new logging file r = (Err DatabaseAlreadyOpen, [])) /\
  (forall err, r = Err (TryLockErr err) -> kind err = Unsupported ->
     FileBackend_new logging file r
     = (Ok {| lock_supported := false; file := file |},
        if logging then [WarnLocksUnsupported] else [])) /\
  (forall err, r = Err (TryLockErr err) -> kind err <> Unsupported ->
     FileBackend_new logging file r = (Err (Storage (Io err)), [])).
Proof.
  unfold FileBackend_new.
  split; [intros ->; reflexivity|].
  split; [intros ->; reflexivity|].
  split; intros err -> Hk.
  - now rewrite Hk.
  - destruct (kind err); try reflexivity; contradiction.
Qed.

Lemma C3_FileBackend_new_outcomes_witness :
  FileBackend_new true 7 (Err (TryLockErr lock_unsupported_err))
  = (Ok {| lock_supported := false; file := 7 |}, [WarnLocksUnsupported]) /\
  FileBackend_new true 7 (Err (TryLockErr (last_os_error 5)))
  = (Err (Storage (Io (last_os_error 5))), []).
Proof.
  destruct (C3_FileBackend_new_outcomes true 7 (Err (TryLockErr lock_unsupported_err)))
    as (_ & _ & H3 & _).
  destruct (C3_FileBackend_new_outcomes true 7 (Err (TryLockErr (last_os_error 5))))
    as (_ & _ & _ & H4).
  split; [apply (H3 lock_unsupported_err); reflexivity
         | apply (H4 (last_os_error 5)); [reflexivity | discriminate]].
Defined.

(** C4: a successful [read] of [n] bytes at [off], on either path, returns
    a buffer of exactly [n] bytes, all of them the file's bytes at
    [off .. off+n]: never a partly filled buffer. *)
Theorem C4_read_full_buffer (p : Platform) (fuel : nat) (env : Env)
    (f : list byte) (off n : nat) (buf : list byte) :
  read p fuel env f off n = Some (Ok buf) ->
  length buf = n /\ buf = firstn n (skipn off f).
Proof. apply read_ok. Qed.

Lemma C4_read_full_buffer_witness :
  read Windows 10 one_byte_env [Byte.x01; Byte.x02; Byte.x03] 1 2
  = Some (Ok [Byte.x02; Byte.x03]) /\
  length [Byte.x02; Byte.x03] = 2.
Proof.
  split; [reflexivity|].
  exact (proj1 (C4_read_full_buffer Windows 10 one_byte_env
                  [Byte.x01; Byte.x02; Byte.x03] 1 2 [Byte.x02; Byte.x03]
                  eq_refl)).
Defined.

(** C5 (counterexample): closing a locked backend twice calls [unlock]
    twice; [close] keeps no record of an earlier call. *)
Lemma C5_close_twice_unlocks_twice :
  unlock_calls (snd (close_many {| lock_supported := true; file := 0 |} [Ok tt; Ok tt])) = 2.
Proof. reflexivity. Qed.

(** C5 (amended): over any sequence of [close] calls, a backend with
    [lock_supported = true] calls [unlock] once per call and returns that
    call's outcome (a failure is propagated as is); a backend with
    [lock_supported = false] makes no call and succeeds every time. *)
Theorem C5_close_many_spec (self : FileBackend) (unlocks : list (result unit io_error)) :
  close_many self unlocks
  = if lock_supported self
    then (unlocks, repeat (SysUnlock (file self)) (length unlocks))
    else (repeat (Ok tt) (length unlocks), []).
Proof.
  induction unlocks as [|u us IH]; [now destruct (lock_supported self)|].
  simpl. rewrite IH. unfold close.
  destruct (lock_supported self); [|reflexivity].
  destruct u as [[]|e]; reflexivity.
Qed.

(** C6: off macOS, [sync_data] performs the full data sync whatever the
    [eventual] flag; on macOS, [eventual = false] performs the full data
    sync, and [eventual = true] calls [fcntl(F_BARRIERFSYNC)] and fails with
    the error built from the last OS error exactly when it returns -1. *)
Theorem C6_sync_data_paths (p : Platform) (self : FileBackend) (eventual : bool)
    (fsync : result unit io_error) (code : Z) (errno : nat) :
  (p <> MacOS ->
     sync_data p self eventual fsync code errno = (fsync, [SysSyncData (file self)])) /\
  sync_data MacOS self false fsync code errno = (fsync, [SysSyncData (file self)]) /\
  (code = (-1)%Z ->
     sync_data MacOS self true fsync code errno
     = (Err (last_os_error errno), [SysFcntlBarrierFsync (file self)])) /\
  (code <> (-1)%Z ->
     sync_data MacOS self true fsync code errno
     = (Ok tt, [SysFcntlBarrierFsync (file self)])).
Proof.
  split; [destruct p; first [reflexivity | contradiction]|].
  split; [reflexivity|].
  split; intros Hc; simpl.
  - now rewrite Hc.
  - now rewrite (proj2 (Z.eqb_neq _ _) Hc).
Qed.

Lemma C6_sync_data_paths_witness :
  sync_data Windows {| lock_supported := true; file := 3 |} true (Ok tt) 0 0
  = (Ok tt, [SysSyncData 3]) /\
  sync_data MacOS {| lock_supported := true; file := 3 |} true (Ok tt) (-1) 5
  = (Err (last_os_error 5), [SysFcntlBarrierFsync 3]) /\
  sync_data MacOS {| lock_supported := true; file := 3 |} true (Ok tt) 0 5
  = (Ok tt, [SysFcntlBarrierFsync 3]).
Proof.
  destruct (C6_sync_data_paths Windows {| lock_supported := true; file := 3 |} true
              (Ok tt) 0 0) as (H1 & _).
  destruct (C6_sync_data_paths MacOS {| lock_supported := true; file := 3 |} true
              (Ok tt) (-1) 5) as (_ & _ & H3 & _).
  destruct (C6_sync_data_paths MacOS {| lock_supported := true; file := 3 |} true
              (Ok tt) 0 5) as (_ & _ & _ & H4).
  split; [apply H1; discriminate|].
  split; [apply H3; reflexivity | apply H4; discriminate].
Defined.

(** C7: for [off + length data <= len()], a successful [write] of [data]
    at [off] followed by a successful [read] of [length data] bytes at [off]
    returns [data], on either path and for any short counts of the OS. *)
Theorem C7_write_read_roundtrip (p : Platform) (fuel_w fuel_r : nat)
    (env_w env_r : Env) (f : list byte) (off : nat) (data f' buf : list byte) :
  off + length data <= length f ->
  write p fuel_w env_w f off data = Some (Ok tt, f') ->
  read p fuel_r env_r f' off (length data) = Some (Ok buf) ->
  buf = data.
Proof.
  intros Hin Hw Hr.
  apply write_ok in Hw; [|exact Hin]. subst f'.
  apply read_ok in Hr. destruct Hr as [_ ->].
  rewrite skipn_overwrite by lia.
  rewrite firstn_app, Nat.sub_diag, firstn_all. simpl. apply app_nil_r.
Qed.

Lemma C7_write_read_roundtrip_witness :
  1 + length [Byte.x07; Byte.x08] <= length [Byte.x01; Byte.x02; Byte.x03] /\
  write Windows 10 one_byte_env [Byte.x01; Byte.x02; Byte.x03] 1 [Byte.x07; Byte.x08]
  = Some (Ok tt, [Byte.x01; Byte.x07; Byte.x08]) /\
  read Windows 10 one_byte_env [Byte.x01; Byte.x07; Byte.x08] 1 2
  = Some (Ok [Byte.x07; Byte.x08]) /\
  [Byte.x07; Byte.x08] = [Byte.x07; Byte.x08].
Proof.
  split; [simpl; lia|]. split; [reflexivity|]. split; [reflexivity|].
  exact (C7_write_read_roundtrip Windows 10 10 one_byte_env one_byte_env
           [Byte.x01; Byte.x02; Byte.x03] 1 [Byte.x07; Byte.x08]
           [Byte.x01; Byte.x07; Byte.x08] [Byte.x07; Byte.x08]
           ltac:(simpl; lia) eq_refl eq_refl).
Defined.

(** C8: a successful [set_len l] followed by a successful [len()] gives
    [l], whether [l] is larger or smaller than the previous size. *)
Theorem C8_set_len_len (res metadata : option io_error) (f : list byte)
    (l : nat) (f' : list byte) (n : nat) :
  set_len res f l = (Ok tt, f') -> len metadata f' = Ok n -> n = l.
Proof.
  unfold set_len, len. intros Hs Hl.
  destruct res; [discriminate|]. injection Hs as <-.
  destruct metadata; [discriminate|]. injection Hl as <-.
  rewrite length_app, length_firstn, repeat_length. lia.
Qed.

Lemma C8_set_len_len_witness :
  set_len None [Byte.x01; Byte.x02] 5
  = (Ok tt, [Byte.x01; Byte.x02; Byte.x00; Byte.x00; Byte.x00]) /\
  len None [Byte.x01; Byte.x02; Byte.x00; Byte.x00; Byte.x00] = Ok 5 /\
  5 = 5.
Proof.
  split; [reflexivity|]. split; [reflexivity|].
  exact (C8_set_len_len None None [Byte.x01; Byte.x02] 5
           [Byte.x01; Byte.x02; Byte.x00; Byte.x00; Byte.x00] 5 eq_refl eq_refl).
Defined.

(** C9: a read of length zero succeeds with the empty buffer at every
    offset, also past the end of the file, without any call to the OS:
    whatever the OS answers, one loop test suffices and no other result is
    possible. *)
Theorem C9_read_zero_length (p : Platform) (env : Env) (f : list byte) (off : nat) :
  read p 1 env f off 0 = Some (Ok []) /\
  (forall fuel r, read p fuel env f off 0 = Some r -> r = Ok []).
Proof.
  split; [destruct p; reflexivity|].
  intros [|fuel] r H; destruct p; simpl in H; inversion H; reflexivity.
Qed.

Lemma C9_read_zero_length_witness :
  read Windows 5 stalled_env [] 9 0 = Some (Ok []) /\
  (Ok [] : result (list byte) io_error) = Ok [].
Proof.
  split; [reflexivity|].
  apply (proj2 (C9_read_zero_length Windows stalled_env [] 9) 5).
  reflexivity.
Defined.

(** C10: a write of empty data succeeds at every offset and leaves the file
    as it was, contents and length. *)
Theorem C10_write_empty_unchanged (p : Platform) (env : Env) (f : list byte) (off : nat) :
  write p 1 env f off [] = Some (Ok tt, f) /\
  (forall fuel r f', write p fuel env f off [] = Some (r, f') -> r = Ok tt /\ f' = f).
Proof.
  split; [destruct p; reflexivity|].
  intros [|fuel] r f' H; destruct p; simpl in H; try discriminate;
    inversion H; subst; split; reflexivity.
Qed.

Lemma C10_write_empty_unchanged_witness :
  write Windows 5 stalled_env [Byte.x01] 9 [] = Some (Ok tt, [Byte.x01]) /\
  (Ok tt : result unit io_error) = Ok tt /\ [Byte.x01] = [Byte.x01].
Proof.
  split; [reflexivity|].
  exact (proj2 (C10_write_empty_unchanged Windows stalled_env [Byte.x01] 9) 5
           (Ok tt) [Byte.x01] eq_refl).
Defined.

(** ** Further properties of the backend *)

(** The normal form of an OS write of non-empty bytes: the file up to
    [off], zero bytes up to [off] if the file was shorter, the bytes, and
    the rest of the file after them. *)
Lemma file_write_nf (f c : list byte) (off : nat) :
  c <> [] ->
  file_write f off c
  = firstn off f ++ repeat Byte.x00 (off - length f) ++ c ++ skipn (off + length c) f.
Proof.
  intros Hc. destruct c as [|x c']; [contradiction|].
  set (c := x :: c'). unfold file_write, overwrite. fold c.
  destruct (Nat.le_gt_cases off (length f)) as [Hle|Hgt].
  - replace (off - length f) with 0 by lia. simpl. now rewrite app_nil_r.
  - rewrite firstn_app, firstn_all2 by lia.
    rewrite firstn_all2 by (rewrite repeat_length; lia).
    rewrite skipn_all2 by (rewrite length_app, repeat_length; lia).
    rewrite (skipn_all2 (n := off + length c) f) by lia.
    unfold c. simpl. now rewrite <- app_assoc.
Qed.

Lemma file_write_length (f c : list byte) (off : nat) :
  c <> [] -> length (file_write f off c) = Nat.max (length f) (off + length c).
Proof.
  intros Hc. rewrite file_write_nf by exact Hc.
  rewrite !length_app, length_firstn, repeat_length, length_skipn. lia.
Qed.

(** Two OS writes of adjacent pieces have the effect of one write. *)
Lemma file_write_compose (f a b : list byte) (off : nat) :
  file_write (file_write f off a) (off + length a) b = file_write f off (a ++ b).
Proof.
  destruct a as [|x a'] eqn:Ea; [simpl; now rewrite Nat.add_0_r|].
  rewrite <- Ea. assert (Ha : a <> []) by (subst; discriminate).
  destruct b as [|y b'] eqn:Eb; [now rewrite app_nil_r|].
  rewrite <- Eb. assert (Hb : b <> []) by (subst; discriminate).
  assert (Hab : a ++ b <> []) by (destruct a; [contradiction|discriminate]).
  rewrite (file_write_nf f (a ++ b)) by exact Hab.
  rewrite (file_write_nf _ b) by exact Hb.
  rewrite (file_write_nf f a) by exact Ha.
  set (P := firstn off f ++ repeat Byte.x00 (off - length f)).
  assert (HP : length P = off)
    by (unfold P; rewrite length_app, length_firstn, repeat_length; lia).
  set (R := skipn (off + length a) f).
  assert (E : firstn off f ++ repeat Byte.x00 (off - length f) ++ a ++ R
              = (P ++ a) ++ R) by (unfold P; now rewrite <- !app_assoc).
  rewrite E.
  assert (HPa : length (P ++ a) = off + length a) by (rewrite length_app; lia).
  rewrite firstn_app, (firstn_all2 (n := off + length a) (P ++ a)) by lia.
  rewrite HPa, Nat.sub_diag, firstn_O, app_nil_r.
  rewrite length_app, HPa.
  replace (off + length a - (off + length a + length R)) with 0 by lia.
  change (repeat Byte.x00 0) with (@nil byte). rewrite app_nil_l.
  rewrite skipn_app, (skipn_all2 (n := off + length a + length b) (P ++ a)) by lia.
  rewrite HPa, app_nil_l.
  unfold R. rewrite skipn_skipn, length_app.
  replace (off + length a + length b - (off + length a) + (off + length a))
    with (off + (length a + length b)) by lia.
  unfold P. now rewrite <- !app_assoc.
Qed.



(** Whatever its outcome, the windows write loop has written a prefix of
    the data, the whole of it when it succeeds. *)
Lemma seek_write_loop_prefix (fuel : nat) : forall env i fc data d off o f0 r f',
  d <= length data -> fc = file_write f0 o (firstn d data) -> off = o + d ->
  seek_write_loop fuel env i fc data d off = Some (r, f') ->
  exists d', d' <= length data /\ f' = file_write f0 o (firstn d' data) /\
             (r = Ok tt -> d' = length data).
Proof.
  induction fuel as [|fuel IH];
    intros env i fc data d off o f0 r f' Hd Hfc Hoff Hrun; [discriminate|].
  simpl in Hrun. destruct (Nat.ltb_spec d (length data)) as [Hlt|Hge].
  - unfold write_at in Hrun. destruct (env i) as [cap|e].
    + set (n := Nat.min (length (skipn d data)) cap) in *.
      assert (Hn : n <= length data - d) by (unfold n; rewrite length_skipn; lia).
      assert (Hfd : length (firstn d data) = d) by (rewrite length_firstn; lia).
      apply (IH env (S i) (file_write fc off (firstn n (skipn d data))) data
               (d + n) (off + n) o f0 r f'); [lia | | lia | exact Hrun].
      subst fc off. rewrite <- Hfd at 2.
      now rewrite file_write_compose, firstn_add.
    + injection Hrun as <- <-. exists d. split; [lia|]. split; [exact Hfc|].
      discriminate.
  - injection Hrun as <- <-. exists d. split; [lia|]. split; [exact Hfc|]. lia.
Qed.

(** The same for std's [write_all_at] on unix. *)
Lemma write_all_at_prefix (fuel : nat) : forall env i fc buf off d o data f0 r f',
  d <= length data -> buf = skipn d data ->
  fc = file_write f0 o (firstn d data) -> off = o + d ->
  write_all_at fuel env i fc buf off = Some (r, f') ->
  exists d', d' <= length data /\ f' = file_write f0 o (firstn d' data) /\
             (r = Ok tt -> d' = length data).
Proof.
  induction fuel as [|fuel IH];
    intros env i fc buf off d o data f0 r f' Hd Hbuf Hfc Hoff Hrun; [discriminate|].
  subst buf. simpl in Hrun.
  assert (Hfd : length (firstn d data) = d) by (rewrite length_firstn; lia).
  destruct (skipn d data) as [|b bs] eqn:Eb.
  - injection Hrun as <- <-. exists d. split; [lia|]. split; [exact Hfc|].
    intros _. assert (length data <= d) by (apply skipn_all_iff; exact Eb). lia.
  - rewrite <- Eb in Hrun. unfold write_at in Hrun.
    destruct (env i) as [cap|e].
    + set (n := Nat.min (length (skipn d data)) cap) in *.
      assert (Hn : n <= length data - d) by (unfold n; rewrite length_skipn; lia).
      destruct n as [|n'] eqn:En.
      * injection Hrun as <- <-. exists d. split; [lia|]. split; [exact Hfc|].
        discriminate.
      * rewrite <- En in *.
        apply (IH env (S i) (file_write fc off (firstn n (skipn d data)))
                 (skipn n (skipn d data)) (off + n) (d + n) o data f0 r f');
          [lia | | | lia | exact Hrun].
        -- rewrite skipn_skipn. f_equal. lia.
        -- subst fc off. rewrite <- Hfd at 2.
           now rewrite file_write_compose, firstn_add.
    + destruct (kind e) eqn:Ek;
        try (injection Hrun as <- <-; exists d; split; [lia|];
             split; [exact Hfc | discriminate]).
      exact (IH env (S i) fc (skipn d data) off d o data f0 r f'
               Hd eq_refl Hfc Hoff Hrun).
Qed.

Lemma write_prefix (p : Platform) (fuel : nat) (env : Env) (f : list byte)
    (off : nat) (data : list byte) (r : result unit io_error) (f' : list byte) :
  write p fuel env f off data = Some (r, f') ->
  exists d, d <= length data /\ f' = file_write f off (firstn d data) /\
            (r = Ok tt -> d = length data).
Proof.
  unfold write. intros Hrun.
  destruct p;
    [ apply (write_all_at_prefix fuel env 0 f data off 0 off data f r f')
    | apply (write_all_at_prefix fuel env 0 f data off 0 off data f r f')
    | apply (write_all_at_prefix fuel env 0 f data off 0 off data f r f')
    | apply (seek_write_loop_prefix fuel env 0 f data 0 off off f r f') ];
    solve [exact Hrun | lia | reflexivity].
Qed.

(** The length of one chunk returned by [read_at]. *)
Lemma read_chunk_length (f : list byte) (want cap off : nat) :
  length (firstn (Nat.min want cap) (skipn off f))
  = Nat.min (Nat.min want cap) (length f - off).
Proof. now rewrite length_firstn, length_skipn. Qed.

Section Progressing.
(** An OS whose every positional call transfers at least one byte when
    it can. *)
Variable env : Env.
Hypothesis Hprog : forall k, exists c, env k = Progress (S c).

Lemma seek_read_loop_completes (f : list byte) (fuel : nat) :
  forall i buf d off0 off,
  d <= length buf -> firstn d buf = firstn d (skipn off0 f) -> off = off0 + d ->
  off0 + length buf <= length f -> length buf - d < fuel ->
  seek_read_loop fuel env f i buf d off = Some (Ok (firstn (length buf) (skipn off0 f))).
Proof.
  induction fuel as [|fuel IH]; intros i buf d off0 off Hd Hpre Hoff Hin Hfuel;
    [lia|].
  simpl. destruct (Nat.ltb_spec d (length buf)) as [Hlt|Hge].
  - unfold read_at. destruct (Hprog i) as [c Hc]. rewrite Hc. subst off.
    destruct (fill_step f buf off0 d (Nat.min (length buf - d) (S c)) Hd Hpre)
      as (Hlen & Hle & Hpre'); [lia|].
    set (chunk := firstn (Nat.min (length buf - d) (S c)) (skipn (off0 + d) f))
      in *.
    assert (Hm : 0 < length chunk) by (unfold chunk; rewrite read_chunk_length; lia).
    pose proof (IH (S i) (overwrite buf d chunk) (d + length chunk) off0
                  (off0 + d + length chunk)) as H.
    rewrite Hlen in H. apply H; [exact Hle | exact Hpre' | lia | exact Hin | lia].
  - f_equal. f_equal. assert (d = length buf) as -> by lia.
    now rewrite <- Hpre, firstn_all.
Qed.

Lemma read_exact_at_completes (f : list byte) (fuel : nat) :
  forall i buf d off0 off,
  d <= length buf -> firstn d buf = firstn d (skipn off0 f) -> off = off0 + d ->
  off0 + length buf <= length f -> length buf - d < fuel ->
  read_exact_at fuel env f i buf d off = Some (Ok (firstn (length buf) (skipn off0 f))).
Proof.
  induction fuel as [|fuel IH]; intros i buf d off0 off Hd Hpre Hoff Hin Hfuel;
    [lia|].
  simpl. destruct (Nat.ltb_spec d (length buf)) as [Hlt|Hge].
  - unfold read_at. destruct (Hprog i) as [c Hc]. rewrite Hc. subst off.
    destruct (fill_step f buf off0 d (Nat.min (length buf - d) (S c)) Hd Hpre)
      as (Hlen & Hle & Hpre'); [lia|].
    set (chunk := firstn (Nat.min (length buf - d) (S c)) (skipn (off0 + d) f))
      in *.
    assert (Hm : 0 < length chunk) by (unfold chunk; rewrite read_chunk_length; lia).
    destruct (length chunk) as [|n] eqn:Hn; [lia|].
    rewrite <- Hn in *.
    pose proof (IH (S i) (overwrite buf d chunk) (d + length chunk) off0
                  (off0 + d + length chunk)) as H.
    rewrite Hlen in H. apply H; [exact Hle | exact Hpre' | lia | exact Hin | lia].
  - f_equal. f_equal. assert (d = length buf) as -> by lia.
    now rewrite <- Hpre, firstn_all.
Qed.

Lemma read_exact_at_eof (f : list byte) (fuel : nat) :
  forall i buf d off0 off,
  0 < length buf -> d <= length f - off0 -> off = off0 + d ->
  length f < off0 + length buf -> length buf - d < fuel ->
  read_exact_at fuel env f i buf d off = Some (Err READ_EXACT_EOF).
Proof.
  induction fuel as [|fuel IH]; intros i buf d off0 off Hpos Hd Hoff Hout Hfuel;
    [lia|].
  simpl. destruct (Nat.ltb_spec d (length buf)) as [Hlt|Hge]; [|lia].
  unfold read_at. destruct (Hprog i) as [c Hc]. rewrite Hc. subst off.
  set (chunk := firstn (Nat.min (length buf - d) (S c)) (skipn (off0 + d) f)).
  assert (Hm : length chunk = Nat.min (Nat.min (length buf - d) (S c))
                                (length f - (off0 + d)))
    by apply read_chunk_length.
  destruct (length chunk) as [|n] eqn:Hn; [reflexivity|].
  rewrite <- Hn.
  assert (Hlen : length (overwrite buf d chunk) = length buf)
    by (apply overwrite_length; lia).
  apply (IH (S i) _ (d + length chunk) off0); rewrite ?Hlen; lia.
Qed.

Lemma seek_write_loop_completes (f0 data : list byte) (o fuel : nat) :
  forall i fc d off,
  d <= length data -> fc = file_write f0 o (firstn d data) -> off = o + d ->
  length data - d < fuel ->
  seek_write_loop fuel env i fc data d off = Some (Ok tt, file_write f0 o data).
Proof.
  induction fuel as [|fuel IH]; intros i fc d off Hd Hfc Hoff Hfuel; [lia|].
  simpl. destruct (Nat.ltb_spec d (length data)) as [Hlt|Hge].
  - unfold write_at. destruct (Hprog i) as [c Hc]. rewrite Hc.
    set (n := Nat.min (length (skipn d data)) (S c)).
    assert (Hn : 0 < n <= length data - d) by (unfold n; rewrite length_skipn; lia).
    assert (Hfd : length (firstn d data) = d) by (rewrite length_firstn; lia).
    apply IH; [lia | | lia | lia].
    subst fc off. rewrite <- Hfd at 2.
    now rewrite file_write_compose, firstn_add.
  - assert (d = length data) as -> by lia. subst fc. now rewrite firstn_all.
Qed.

Lemma write_all_at_completes (f0 data : list byte) (o fuel : nat) :
  forall i fc d off,
  d <= length data -> fc = file_write f0 o (firstn d data) -> off = o + d ->
  length data - d < fuel ->
  write_all_at fuel env i fc (skipn d data) off = Some (Ok tt, file_write f0 o data).
Proof.
  induction fuel as [|fuel IH]; intros i fc d off Hd Hfc Hoff Hfuel; [lia|].
  simpl.
  assert (Hfd : length (firstn d data) = d) by (rewrite length_firstn; lia).
  destruct (skipn d data) as [|b bs] eqn:Eb.
  - assert (length data <= d) by (apply skipn_all_iff; exact Eb).
    assert (d = length data) as -> by lia. subst fc. now rewrite firstn_all.
  - rewrite <- Eb. unfold write_at. destruct (Hprog i) as [c Hc]. rewrite Hc.
    assert (Hl : length (skipn d data) = length data - d) by apply length_skipn.
    assert (Hpos : 0 < length (skipn d data)) by (rewrite Eb; simpl; lia).
    set (n := Nat.min (length (skipn d data)) (S c)).
    assert (Hn : 0 < n <= length data - d) by (unfold n; lia).
    destruct n as [|n'] eqn:En; [lia|]. rewrite <- En.
    rewrite skipn_skipn, (Nat.add_comm n d).
    apply IH; [lia | | lia | lia].
    subst fc off. rewrite <- Hfd at 2.
    now rewrite file_write_compose, firstn_add.
Qed.
End Progressing.



Lemma firstn_prefix_overwrite (f c : list byte) (off : nat) :
  off <= length f -> firstn off (overwrite f off c) = firstn off f.
Proof.
  intros H. unfold overwrite.
  rewrite firstn_app, firstn_firstn, Nat.min_id, length_firstn.
  replace (off - Nat.min off (length f)) with 0 by lia. simpl. apply app_nil_r.
Qed.

Lemma skipn_suffix_overwrite (f c : list byte) (off k : nat) :
  off + length c <= k -> off <= length f ->
  skipn k (overwrite f off c) = skipn k f.
Proof.
  intros Hk Hoff. unfold overwrite. rewrite app_assoc, skipn_app.
  rewrite skipn_all2 by (rewrite length_app, length_firstn; lia).
  rewrite length_app, length_firstn, skipn_skipn. simpl. f_equal. lia.
Qed.

(** X1: a successful read of [n > 0] bytes at [off], on either path, lies
    within the file: [off + n] is at most the file length. *)
Theorem X1_read_success_within_file (p : Platform) (fuel : nat) (env : Env)
    (f : list byte) (off n : nat) (buf : list byte) :
  0 < n -> read p fuel env f off n = Some (Ok buf) -> off + n <= length f.
Proof.
  intros Hn Hr. apply read_ok in Hr. destruct Hr as [Hl Hb].
  rewrite Hb, length_firstn, length_skipn in Hl. lia.
Qed.

Lemma X1_read_success_within_file_witness :
  1 + 2 <= length [Byte.x01; Byte.x02; Byte.x03].
Proof.
  apply (X1_read_success_within_file Windows 10 one_byte_env
           [Byte.x01; Byte.x02; Byte.x03] 1 2 [Byte.x02; Byte.x03]);
    [lia | reflexivity].
Defined.

(** X2: when every OS call transfers at least one byte (short reads
    allowed), a read of [n] bytes inside the file completes within [n + 1]
    loop turns on either path and returns the file's bytes at
    [off .. off+n]. *)
Theorem X2_read_completes_under_short_reads (p : Platform) (env : Env)
    (Hprog : forall k, exists c, env k = Progress (S c))
    (f : list byte) (off n fuel : nat) :
  off + n <= length f -> n < fuel ->
  read p fuel env f off n = Some (Ok (firstn n (skipn off f))).
Proof.
  intros Hin Hfuel. unfold read.
  assert (Hl : length (repeat Byte.x00 n) = n) by apply repeat_length.
  replace (firstn n (skipn off f))
    with (firstn (length (repeat Byte.x00 n)) (skipn off f)) by now rewrite Hl.
  destruct p;
    [ apply (read_exact_at_completes env Hprog)
    | apply (read_exact_at_completes env Hprog)
    | apply (read_exact_at_completes env Hprog)
    | apply (seek_read_loop_completes env Hprog) ].
  all: rewrite ?repeat_length; solve [reflexivity | lia].
Qed.

Lemma X2_read_completes_under_short_reads_witness :
  read Windows 4 one_byte_env [Byte.x01; Byte.x02; Byte.x03; Byte.x04] 1 3
  = Some (Ok [Byte.x02; Byte.x03; Byte.x04]).
Proof.
  apply (X2_read_completes_under_short_reads Windows one_byte_env
           (fun _ => ex_intro _ 0 eq_refl)
           [Byte.x01; Byte.x02; Byte.x03; Byte.x04] 1 3 4); simpl; lia.
Defined.

(** X3: on unix and wasi, when every OS call transfers at least one byte
    when it can, a read of [n > 0] bytes that reaches past the end of the
    file ends with the [UnexpectedEof] error. *)
Theorem X3_unix_read_past_eof_fails (p : Platform) (env : Env)
    (Hprog : forall k, exists c, env k = Progress (S c))
    (f : list byte) (off n fuel : nat) :
  p <> Windows -> 0 < n -> length f < off + n -> n < fuel ->
  read p fuel env f off n = Some (Err READ_EXACT_EOF).
Proof.
  intros Hp Hn Hout Hfuel. unfold read.
  assert (Hl : length (repeat Byte.x00 n) = n) by apply repeat_length.
  destruct p; [ | | | contradiction];
    apply (read_exact_at_eof env Hprog f fuel 0 _ 0 off); rewrite ?repeat_length; lia.
Qed.

Lemma X3_unix_read_past_eof_fails_witness :
  read Linux 6 one_byte_env [Byte.x01; Byte.x02; Byte.x03] 1 5
  = Some (Err READ_EXACT_EOF).
Proof.
  apply (X3_unix_read_past_eof_fails Linux one_byte_env
           (fun _ => ex_intro _ 0 eq_refl) [Byte.x01; Byte.x02; Byte.x03] 1 5 6);
    [discriminate | lia | simpl; lia | lia].
Defined.





(** X6: an error from the first positional call is returned as it is, and
    a failed write leaves the file unchanged: on windows for every error
    (an [Interrupted] one included: there is no retry), on unix and wasi for
    every error but [Interrupted]. *)
Theorem X6_first_call_error_propagated (p : Platform) (env : Env) (fuel : nat)
    (f : list byte) (off n : nat) (data : list byte) (e : io_error) :
  env 0 = Fail e -> (p = Windows \/ kind e <> Interrupted) ->
  (0 < n -> read p (S fuel) env f off n = Some (Err e)) /\
  (data <> [] -> write p (S fuel) env f off data = Some (Err e, f)).
Proof.
  intros H0 Hpk. split.
  - intros Hn. unfold read.
    destruct n as [|n']; [lia|].
    destruct p; simpl; unfold read_at; rewrite H0; [..| reflexivity];
      (destruct Hpk as [Hw|Hk]; [discriminate|]);
      destruct (kind e); solve [reflexivity | contradiction].
  - intros Hd. unfold write. destruct data as [|b bs]; [contradiction|].
    destruct p; simpl; unfold write_at; rewrite H0; [..| reflexivity];
      (destruct Hpk as [Hw|Hk]; [discriminate|]);
      destruct (kind e); solve [reflexivity | contradiction].
Qed.

Lemma X6_first_call_error_propagated_witness :
  read Windows 3 (fun _ => Fail {| kind := Interrupted; raw_os_error := Some 4 |})
    [Byte.x01] 0 1 = Some (Err {| kind := Interrupted; raw_os_error := Some 4 |}) /\
  write Linux 3 (fun _ => Fail (last_os_error 28)) [Byte.x01] 0 [Byte.x07]
  = Some (Err (last_os_error 28), [Byte.x01]).
Proof.
  split.
  - apply (proj1 (X6_first_call_error_propagated Windows
                    (fun _ => Fail {| kind := Interrupted; raw_os_error := Some 4 |})
                    2 [Byte.x01] 0 1 []
                    {| kind := Interrupted; raw_os_error := Some 4 |}
                    eq_refl (or_introl eq_refl))).
    lia.
  - assert (Hk : kind (last_os_error 28) <> Interrupted) by (simpl; discriminate).
    destruct (X6_first_call_error_propagated Linux (fun _ => Fail (last_os_error 28))
                2 [Byte.x01] 0 1 [Byte.x07] (last_os_error 28) eq_refl (or_intror Hk))
      as [_ H2].
    apply H2. discriminate.
Defined.

(** X7: a write inside the file, whatever its outcome (success or an error
    part-way), has written a prefix of the data at [off], all of it on
    success, and nothing else: the file length and the bytes before [off]
    and from [off + length data] on are unchanged. *)
Theorem X7_write_inbounds_prefix_frame (p : Platform) (fuel : nat) (env : Env)
    (f : list byte) (off : nat) (data : list byte) (r : result unit io_error)
    (f' : list byte) :
  off + length data <= length f ->
  write p fuel env f off data = Some (r, f') ->
  (exists d, d <= length data /\ f' = overwrite f off (firstn d data) /\
             (r = Ok tt -> d = length data)) /\
  length f' = length f /\
  firstn off f' = firstn off f /\
  skipn (off + length data) f' = skipn (off + length data) f.
Proof.
  intros Hin Hw. apply write_prefix in Hw. destruct Hw as (d & Hd & Hf' & Hr).
  assert (Hfd : length (firstn d data) = d) by (rewrite length_firstn; lia).
  rewrite file_write_inbounds in Hf' by lia. subst f'.
  split; [exists d; auto|].
  split; [apply overwrite_length; lia|].
  split; [apply firstn_prefix_overwrite; lia|].
  apply skipn_suffix_overwrite; lia.
Qed.

Lemma X7_write_inbounds_prefix_frame_witness :
  write Windows 5 fail_after_one_env [Byte.x01; Byte.x02; Byte.x03; Byte.x04] 1
    [Byte.x07; Byte.x08]
  = Some (Err {| kind := Other; raw_os_error := Some 5 |},
          [Byte.x01; Byte.x07; Byte.x03; Byte.x04]) /\
  length [Byte.x01; Byte.x07; Byte.x03; Byte.x04] = 4.
Proof.
  split; [reflexivity|].
  exact (proj1 (proj2 (X7_write_inbounds_prefix_frame Windows 5 fail_after_one_env
           [Byte.x01; Byte.x02; Byte.x03; Byte.x04] 1 [Byte.x07; Byte.x08]
           (Err {| kind := Other; raw_os_error := Some 5 |})
           [Byte.x01; Byte.x07; Byte.x03; Byte.x04]
           ltac:(simpl; lia) eq_refl))).
Defined.

(** X8: a successful write of non-empty data, also at or past the end of
    the file, leaves the file as: its bytes before [off], zero bytes from
    its old end up to [off], the data, then its bytes after the data; its
    length becomes the larger of the old length and [off + length data].
    The partial writes of the loops add up to one write. *)
Theorem X8_write_success_effect (p : Platform) (fuel : nat) (env : Env)
    (f : list byte) (off : nat) (data f' : list byte) :
  data <> [] ->
  write p fuel env f off data = Some (Ok tt, f') ->
  f' = firstn off f ++ repeat Byte.x00 (off - length f) ++ data
       ++ skipn (off + length data) f /\
  length f' = Nat.max (length f) (off + length data).
Proof.
  intros Hd Hw. apply write_prefix in Hw. destruct Hw as (d & _ & Hf' & Hr).
  rewrite (Hr eq_refl), firstn_all in Hf'. subst f'.
  split; [apply file_write_nf; exact Hd | apply file_write_length; exact Hd].
Qed.

Lemma X8_write_success_effect_witness :
  write Linux 10 one_byte_env [Byte.x01] 3 [Byte.x07; Byte.x08]
  = Some (Ok tt, [Byte.x01; Byte.x00; Byte.x00; Byte.x07; Byte.x08]) /\
  length [Byte.x01; Byte.x00; Byte.x00; Byte.x07; Byte.x08] = Nat.max 1 (3 + 2).
Proof.
  split; [reflexivity|].
  exact (proj2 (X8_write_success_effect Linux 10 one_byte_env [Byte.x01] 3
                  [Byte.x07; Byte.x08] [Byte.x01; Byte.x00; Byte.x00; Byte.x07; Byte.x08]
                  ltac:(discriminate) eq_refl)).
Defined.

(** X9: when every OS call transfers at least one byte (short writes
    allowed), a write completes within [length data + 1] loop turns on
    either path, with the effect of a single OS write of all the data. *)
Theorem X9_write_completes_under_short_writes (p : Platform) (env : Env)
    (Hprog : forall k, exists c, env k = Progress (S c))
    (f : list byte) (off : nat) (data : list byte) (fuel : nat) :
  length data < fuel ->
  write p fuel env f off data = Some (Ok tt, file_write f off data).
Proof.
  intros Hfuel. unfold write.
  destruct p;
    [ apply (write_all_at_completes env Hprog f data off fuel 0 f 0 off)
    | apply (write_all_at_completes env Hprog f data off fuel 0 f 0 off)
    | apply (write_all_at_completes env Hprog f data off fuel 0 f 0 off)
    | apply (seek_write_loop_completes env Hprog f data off fuel 0 f 0 off) ];
    solve [reflexivity | lia].
Qed.

Lemma X9_write_completes_under_short_writes_witness :
  write Windows 4 one_byte_env [Byte.x01] 2 [Byte.x07; Byte.x08; Byte.x09]
  = Some (Ok tt, file_write [Byte.x01] 2 [Byte.x07; Byte.x08; Byte.x09]).
Proof.
  apply (X9_write_completes_under_short_writes Windows one_byte_env
           (fun _ => ex_intro _ 0 eq_refl)); simpl; lia.
Defined.



(** X11: shrinking the file with [set_len] and growing it again does not
    bring the cut bytes back: after [set_len l1] then [set_len l2] with
    [l1 <= l2], the file is its first [l1] bytes (at most its old length)
    followed by zero bytes up to [l2]. *)
Theorem X11_set_len_shrink_then_grow (r1 r2 : option io_error) (f f1 f2 : list byte)
    (l1 l2 : nat) :
  l1 <= l2 ->
  set_len r1 f l1 = (Ok tt, f1) -> set_len r2 f1 l2 = (Ok tt, f2) ->
  f2 = firstn l1 f ++ repeat Byte.x00 (l2 - Nat.min l1 (length f)).
Proof.
  intros Hle H1 H2. unfold set_len in H1, H2.
  destruct r1; [discriminate|]. destruct r2; [discriminate|].
  injection H1 as <-. injection H2 as <-.
  assert (Hl1 : length (firstn l1 f ++ repeat Byte.x00 (l1 - length f)) = l1)
    by (rewrite length_app, length_firstn, repeat_length; lia).
  rewrite Hl1, firstn_all2 by lia.
  rewrite <- app_assoc, <- repeat_app. f_equal. f_equal. lia.
Qed.

Lemma X11_set_len_shrink_then_grow_witness :
  set_len None [Byte.x01; Byte.x02; Byte.x03] 1 = (Ok tt, [Byte.x01]) /\
  set_len None [Byte.x01] 3 = (Ok tt, [Byte.x01; Byte.x00; Byte.x00]) /\
  [Byte.x01; Byte.x00; Byte.x00]
  = firstn 1 [Byte.x01; Byte.x02; Byte.x03] ++ repeat Byte.x00 (3 - Nat.min 1 3).
Proof.
  split; [reflexivity|]. split; [reflexivity|].
  apply (X11_set_len_shrink_then_grow None None [Byte.x01; Byte.x02; Byte.x03]
           [Byte.x01] [Byte.x01; Byte.x00; Byte.x00] 1 3); [lia | reflexivity | reflexivity].
Defined.

(** X12: a backend built by [FileBackend::new] unlocks the file on
    [close] (and returns the unlock outcome) exactly when the lock was
    acquired at construction; a backend built after an unsupported-lock
    error makes no call on [close] and succeeds. *)
Theorem X12_new_then_close (logging : bool) (fd : File)
    (r : result unit TryLockError) (b : FileBackend) (log : list LogLine)
    (u : result unit io_error) :
  FileBackend_new logging fd r = (Ok b, log) ->
  (r = Ok tt -> close b u = (u, [SysUnlock fd])) /\
  (r <> Ok tt -> close b u = (Ok tt, [])).
Proof.
  intros Hn. unfold FileBackend_new in Hn.
  destruct r as [[]|[|err]]; [| discriminate |].
  - injection Hn as <- _. split; [|intros H; contradiction H; reflexivity].
    intros _. unfold close. simpl. destruct u as [[]|e]; reflexivity.
  - destruct (kind err); try discriminate.
    injection Hn as <- _. split; [discriminate|]. intros _. reflexivity.
Qed.

Lemma X12_new_then_close_witness :
  close {| lock_supported := true; file := 7 |} (Err (last_os_error 9))
  = (Err (last_os_error 9), [SysUnlock 7]) /\
  close {| lock_supported := false; file := 7 |} (Err (last_os_error 9)) = (Ok tt, []).
Proof.
  split.
  - apply (proj1 (X12_new_then_close false 7 (Ok tt)
                    {| lock_supported := true; file := 7 |} [] (Err (last_os_error 9))
                    eq_refl)).
    reflexivity.
  - apply (proj2 (X12_new_then_close false 7 (Err (TryLockErr lock_unsupported_err))
                    {| lock_supported := false; file := 7 |} [] (Err (last_os_error 9))
                    eq_refl)).
    discriminate.
Defined.
